(** * swagger-proxy: the response recorder and the contract-checking dispatch core

    A shallow embedding of [writer.go] (the [WriterRecorder]) and of the
    proxy (route registration, [Handler], [Validate], [validateHeaderValue],
    [getOperations]), with the properties of the specification stated and
    proved over it.

    Conventions.
    - Go's [int] is [Z]; [[]byte] is [list Byte.byte]; a pair [(n, err)] is
      [Z * option error] with [None] for a nil error.
    - A nil-able pointer that the code tests against nil is an [option].
    - A Go map that the code only looks up is a [gmap]; a Go map that the
      code ranges over is the list of its entries in the order the range
      visits them (Go leaves that order unspecified, the theorems hold for
      every order).
    - Collaborators that live outside the repository (encoding/json, the
      schema validator, the format parsers, the muxer's path matcher, the
      canonical form of header names) are the fields of the class
      [Collaborators]. *)

From Stdlib Require Import ZArith.
From Stdlib Require Import Strings.Byte.
From stdpp Require Import base option strings list gmap pretty.

(** ** Basic data *)

Abbreviation bytes := (list Byte.byte).

(** Go [error] values.  [Errorf] is what [fmt.Errorf] builds and what the
    external parsers hand back; [CompositeError] is what
    [errors.CompositeValidationError] builds from a list of errors. *)
#[warnings="-register-all"]
Inductive error : Type :=
| Errorf (msg : string)
| CompositeError (errs : list error).

(** [http.Header]: a map from header name to the list of its values. *)
Abbreviation Header := (gmap string (list string)).

(** One call on the [http.ResponseWriter] interface. *)
Inductive call : Type :=
| CallHeader
| CallWriteHeader (status : Z)
| CallWrite (p : bytes).

(** ** The [http.ResponseWriter] interface

    [rw_Header_update f] stands for a mutation [f] of the map that
    [Header()] returns ([Set], [Add], [Del] are instances of it). *)
Class ResponseWriter (W : Type) : Type := {
  rw_Header : W → Header;
  rw_Header_update : (Header → Header) → W → W;
  rw_Write : bytes → W → W * (Z * option error);
  rw_WriteHeader : Z → W → W
}.

(** ** [bytes.Buffer], as far as the recorder uses it *)
Class Buffer (B : Type) : Type := {
  buf_zero : B;
  buf_Write : B → bytes → B * (Z * option error);
  buf_Bytes : B → bytes
}.

(** Go's [bytes.Buffer]: [Write] appends and its error is always nil. *)
#[export] Instance bytes_Buffer : Buffer bytes := {|
  buf_zero := [];
  buf_Write b p := (b ++ p, (Z.of_nat (length p), None));
  buf_Bytes b := b
|}.

(** ** writer.go *)

Record WriterRecorder (W B : Type) : Type := mkWriterRecorder {
  wr_ResponseWriter : W;
  wr_status : Z;
  wr_body : B
}.
Arguments mkWriterRecorder {W B} _ _ _.
Arguments wr_ResponseWriter {W B} _.
Arguments wr_status {W B} _.
Arguments wr_body {W B} _.

Section Recorder.
Context {W B : Type} `{!ResponseWriter W} `{!Buffer B}.

(** [&WriterRecorder{ResponseWriter: w}]: status and body are zero values. *)
Definition NewWriterRecorder (w : W) : WriterRecorder W B :=
  mkWriterRecorder w 0%Z buf_zero.

Definition WriteHeader (status : Z) (w : WriterRecorder W B)
  : WriterRecorder W B :=
  mkWriterRecorder (rw_WriteHeader status (wr_ResponseWriter w))
                   status (wr_body w).

Definition Write (body : bytes) (w : WriterRecorder W B)
  : WriterRecorder W B * (Z * option error) :=
  let '(b', (n, err)) := buf_Write (wr_body w) body in
  match err with
  | Some e => (mkWriterRecorder (wr_ResponseWriter w) (wr_status w) b',
               (n, Some e))
  | None =>
      let '(w', r) := rw_Write body (wr_ResponseWriter w) in
      (mkWriterRecorder w' (wr_status w) b', r)
  end.

Definition Body (w : WriterRecorder W B) : bytes := buf_Bytes (wr_body w).

Definition Status (w : WriterRecorder W B) : Z := wr_status w.

(** The recorder embeds the wrapped writer, so [Header] is promoted from
    it; [WriteHeader] and [Write] are the recorder's own. *)
#[export] Instance WriterRecorder_ResponseWriter
  : ResponseWriter (WriterRecorder W B) := {|
  rw_Header w := rw_Header (wr_ResponseWriter w);
  rw_Header_update f w :=
    mkWriterRecorder (rw_Header_update f (wr_ResponseWriter w))
                     (wr_status w) (wr_body w);
  rw_Write := Write;
  rw_WriteHeader := WriteHeader
|}.
End Recorder.

(** ** Handlers

    An [http.Handler] body, as a tree of the calls it makes on the
    [ResponseWriter] it is given; what it does next may depend on what a
    call returned. *)
Inductive prog : Type :=
| Return
| HeaderDo (f : Header → Header) (k : prog)
| HeaderRead (k : Header → prog)
| DoWriteHeader (status : Z) (k : prog)
| DoWrite (p : bytes) (k : Z * option error → prog).

Fixpoint ServeHTTP {W : Type} `{!ResponseWriter W} (h : prog) (w : W) : W :=
  match h with
  | Return => w
  | HeaderDo f k => ServeHTTP k (rw_Header_update f w)
  | HeaderRead k => ServeHTTP (k (rw_Header w)) w
  | DoWriteHeader s k => ServeHTTP k (rw_WriteHeader s w)
  | DoWrite p k => let '(w', r) := rw_Write p w in ServeHTTP (k r) w'
  end.

(** The calls a handler makes when it runs against [w], in order. *)
Fixpoint calls_of {W : Type} `{!ResponseWriter W} (h : prog) (w : W)
  : list call :=
  match h with
  | Return => []
  | HeaderDo f k => CallHeader :: calls_of k (rw_Header_update f w)
  | HeaderRead k => CallHeader :: calls_of (k (rw_Header w)) w
  | DoWriteHeader s k => CallWriteHeader s :: calls_of k (rw_WriteHeader s w)
  | DoWrite p k => let '(w', r) := rw_Write p w in CallWrite p :: calls_of (k r) w'
  end.

(** ** The contract document (go-openapi/spec), as far as the proxy reads it *)

(** HTTP requests: routing reads the method and the path only. *)
Record Request : Type := mkRequest {
  Method : string;
  URL_Path : string
}.

(** [spec.Header]: the declared format of one response header. *)
Record spec_Header : Type := mkHeader {
  Format : string
}.

(** ** Collaborators outside the repository

    The proxy is written against these; its properties hold whatever they
    compute. *)
Class Collaborators : Type := {
  (** [spec.Schema]: the proxy only tests it against nil and hands it to
      the schema validator. *)
  Schema : Type;
  (** The contract document as [interface{}], kept in [proxy.doc]. *)
  Doc : Type;
  (** A decoded JSON value, Go's [interface{}]. *)
  Value : Type;
  (** [strfmt.DateTime]. *)
  DateTime : Type;
  (** How a gorilla/mux path template matches a request path. *)
  mux_path_match : string → string → bool;
  (** [json.Unmarshal(body, &data)]: the decoded value, or the error. *)
  json_Unmarshal : bytes → Value + error;
  (** [swag.ConvertInt32] and [strfmt.ParseDateTime]. *)
  swag_ConvertInt32 : string → Z * option error;
  strfmt_ParseDateTime : string → DateTime * option error;
  (** [validate.NewSchemaValidator(schema, doc, "", formats).Validate(data)]:
      the [Errors] of the result. *)
  SchemaValidator_Validate : Schema → Doc → Value → list error;
  (** [textproto.CanonicalMIMEHeaderKey], which [http.Header.Get] applies
      to the key. *)
  CanonicalMIMEHeaderKey : string → string
}.

Section Contract.
Context `{!Collaborators}.

(** [spec.Response]. [Headers] is ranged over, so it is a list of
    entries. *)
Record spec_Response : Type := mkResponse {
  Headers : list (string * spec_Header);
  Schema_ : option Schema
}.

(** [spec.Responses]; [Operation.Responses] is required by Swagger 2.0
    and dereferenced without a test, so it is the struct itself. *)
Record spec_Responses : Type := mkResponses {
  StatusCodeResponses : gmap Z spec_Response
}.

Record Operation : Type := mkOperation {
  Responses : spec_Responses
}.

(** [spec.PathItem]: one nil-able operation per method. *)
Record PathItem : Type := mkPathItem {
  pi_Get : option Operation;
  pi_Put : option Operation;
  pi_Post : option Operation;
  pi_Delete : option Operation;
  pi_Options : option Operation;
  pi_Head : option Operation;
  pi_Patch : option Operation
}.

(** [spec.Swagger]: [Paths] stands for [s.Paths.Paths], which
    [registerPaths] ranges over. *)
Record Swagger : Type := mkSwagger {
  BasePath : string;
  Paths : list (string * PathItem)
}.

(** *** getOperations *)
Definition getOperations (props : PathItem) : gmap string Operation :=
  let ops : gmap string Operation := ∅ in
  match pi_Delete props with
  | Some op => <["DELETE" := op]> ops
  | None =>
  match pi_Get props with
  | Some op => <["GET" := op]> ops
  | None =>
  match pi_Head props with
  | Some op => <["HEAD" := op]> ops
  | None =>
  match pi_Options props with
  | Some op => <["OPTIONS" := op]> ops
  | None =>
  match pi_Patch props with
  | Some op => <["PATCH" := op]> ops
  | None =>
  match pi_Post props with
  | Some op => <["POST" := op]> ops
  | None =>
  match pi_Put props with
  | Some op => <["PUT" := op]> ops
  | None => ops
  end end end end end end end.

(** *** gorilla/mux, as far as the proxy uses it

    A router is the list of its routes in registration order; a route is
    identified by its position, which stands for the [*mux.Route]
    pointer.  [Handle] appends a route for a path template, [Methods]
    adds a method matcher to it, and [Match] returns the first route whose
    matchers all accept the request; a request that no route accepts goes
    to the router's [NotFoundHandler].  (Releases of the muxer later than
    the proxy answer 405 on their own when a path matches and only the
    method differs; the proxy was written against the behaviour modelled
    here.)  How a template matches a path is left to [mux_path_match]. *)
Record Route : Type := mkRoute {
  rt_template : string;
  rt_methods : option (list string)
}.

Definition Router_Handle (path : string) (r : list Route)
  : list Route * nat :=
  (r ++ [mkRoute path None], length r).

Definition Route_Methods (methods : list string) (route : nat)
           (r : list Route) : list Route :=
  alter (λ rt, mkRoute (rt_template rt) (Some methods)) route r.

Definition Route_Match (req : Request) (rt : Route) : bool :=
  mux_path_match (rt_template rt) (URL_Path req)
  && match rt_methods rt with
     | None => true
     | Some ms => bool_decide (Method req ∈ ms)
     end.

Definition Router_Match (r : list Route) (req : Request) : option nat :=
  fst <$> list_find (λ rt, Is_true (Route_Match req rt)) r.

(** *** The proxy *)
Record Proxy : Type := mkProxy {
  target : string;
  verbose : bool;
  router : list Route;
  routes : gmap nat Operation;
  reverseProxy : Request → prog;
  doc : Doc
}.

Definition set_router (r : list Route) (p : Proxy) : Proxy :=
  mkProxy (target p) (verbose p) r (routes p) (reverseProxy p) (doc p).
Definition set_routes (m : gmap nat Operation) (p : Proxy) : Proxy :=
  mkProxy (target p) (verbose p) (router p) m (reverseProxy p) (doc p).

(** One turn of the inner loop of [registerPaths]; the second component
    is what [log.Printf] has printed so far. *)
Definition register (base path : string) (st : Proxy * list string)
           (entry : string * Operation) : Proxy * list string :=
  let '(proxy, out) := st in
  let '(method, op) := entry in
  let newPath := base +:+ path in
  let out := if verbose proxy
             then out ++ ["Register " +:+ method +:+ " " +:+ newPath]
             else out in
  let '(r, route) := Router_Handle newPath (router proxy) in
  let r := Route_Methods [method] route r in
  (set_routes (<[route := op]> (routes proxy)) (set_router r proxy), out).

(** One turn of the outer loop: the inner loop over [getOperations]. *)
Definition register_item (base : string) (st : Proxy * list string)
           (entry : string * PathItem) : Proxy * list string :=
  let '(path, item) := entry in
  foldl (register base path) st (map_to_list (getOperations item)).

Definition registerPaths (base : string) (paths : list (string * PathItem))
           (st : Proxy * list string) : Proxy * list string :=
  foldl (register_item base) st paths.

(** [http.Header.Get]: the first value under the canonical key, or the
    empty string. *)
Definition Header_Get (h : Header) (key : string) : string :=
  match h !! CanonicalMIMEHeaderKey key with
  | Some (v :: _) => v
  | _ => ""
  end.

(** [validate.Result.HasErrors]. *)
Definition HasErrors (errors : list error) : bool :=
  bool_decide (0 < length errors).

(** *** validateHeaderValue *)
Definition validateHeaderValue (key value : string) (spec : spec_Header)
  : option error :=
  if decide (value = "") then
    Some (Errorf (key +:+ " in headers is missing"))
  else if decide (Format spec = "int32") then
    (swag_ConvertInt32 value).2
  else if decide (Format spec = "date-time") then
    (strfmt_ParseDateTime value).2
  else None.

(** *** Validate

    [Validate] is pure; to make "is invoked" a statement about the model,
    it also returns the list of the collaborator calls it made. *)
Inductive event : Type :=
| ev_Validate (status : Z) (body : bytes)
| ev_json_Unmarshal (body : bytes)
| ev_validateHeaderValue (key value : string)
| ev_SchemaValidator (schema : Schema) (data : Value).

Definition Traced (A : Type) : Type := A * list event.
Definition tret {A} (a : A) : Traced A := (a, []).
Definition tbind {A B} (m : Traced A) (f : A → Traced B) : Traced B :=
  let '(a, t1) := m in let '(b, t2) := f a in (b, t1 ++ t2).
Definition emit (e : event) : Traced unit := (tt, [e]).

Notation "'do!' x <- m ; k" := (tbind m (λ x, k))
  (at level 10, x name, m at level 100, k at level 200).
Notation "'run!' m ; k" := (tbind m (λ _, k))
  (at level 10, m at level 100, k at level 200).

(** The loop [for key, val := range resp.Headers]. *)
Fixpoint range_Headers (hs : list (string * spec_Header)) (header : Header)
         (errs : list error) : Traced (list error) :=
  match hs with
  | [] => tret errs
  | (key, val) :: rest =>
      let value := Header_Get header key in
      run! emit (ev_validateHeaderValue key value);
      match validateHeaderValue key value val with
      | Some err => range_Headers rest header (errs ++ [err])
      | None => range_Headers rest header errs
      end
  end.

Definition Validate (proxy : Proxy) (status : Z) (header : Header)
           (body : bytes) (resp : spec_Response) : Traced (option error) :=
  run! emit (ev_Validate status body);
  run! emit (ev_json_Unmarshal body);
  match json_Unmarshal body with
  | inr err => tret (Some err)
  | inl data =>
      do! errs <- range_Headers (Headers resp) header [];
      do! errs <-
        match Schema_ resp with
        | Some schema =>
            run! emit (ev_SchemaValidator schema data);
            let result := SchemaValidator_Validate schema (doc proxy) data in
            tret (if HasErrors result then errs ++ result else errs)
        | None => tret errs
        end;
      tret (if decide (length errs = 0) then None
            else Some (CompositeError errs))
  end.

(** *** The dispatch core *)

(** What the [Reporter] is told. *)
Inductive notification : Type :=
| Warning (req : Request) (msg : string)
| Error (req : Request) (err : error)
| Success (req : Request).

Context {W : Type} `{!ResponseWriter W}.

(** What a request handler acts on: the caller's response writer, the
    notifications the reporter has received, and the validation calls
    made so far. *)
Record World : Type := mkWorld {
  sink : W;
  reports : list notification;
  events : list event
}.

Definition report (n : notification) (wd : World) : World :=
  mkWorld (sink wd) (reports wd ++ [n]) (events wd).

Definition notFound (proxy : Proxy) (req : Request) (wd : World) : World :=
  let wd := report (Warning req "Route not defined on the Spec") wd in
  mkWorld (ServeHTTP (reverseProxy proxy req) (sink wd))
          (reports wd) (events wd).

(** The function that [Handler next] wraps. [match.Handler] is non-nil
    exactly when [Match] found a route, since every route is registered
    with a handler. *)
Definition Handler (proxy : Proxy) (next : Request → prog)
           (req : Request) (wd : World) : World :=
  let match_Route := Router_Match (router proxy) req in
  let op := match_Route ≫= λ route, routes proxy !! route in
  match match_Route, op with
  | Some _, Some op =>
      let wr : WriterRecorder W bytes :=
        ServeHTTP (next req) (NewWriterRecorder (sink wd)) in
      let wd := mkWorld (wr_ResponseWriter wr) (reports wd) (events wd) in
      match StatusCodeResponses (Responses op) !! Status wr with
      | None =>
          let err := Errorf ("Server Status " +:+ pretty (Status wr)
                             +:+ " not defined by the spec") in
          report (Error req err) wd
      | Some specResp =>
          let '(res, t) :=
            Validate proxy (Status wr) (rw_Header wr) (Body wr) specResp in
          let wd := mkWorld (sink wd) (reports wd) (events wd ++ t) in
          match res with
          | Some err => report (Error req err) wd
          | None => report (Success req) wd
          end
      end
  | _, _ => report (Warning req "Route not defined on the Spec") wd
  end.

Definition newHandler (proxy : Proxy) : Request → World → World :=
  Handler proxy (reverseProxy proxy).

(** [proxy.Router()] serving a request: the matched route's handler, which
    is [newHandler] for every route, or [NotFoundHandler], which [New]
    sets to [notFound]. *)
Definition Router_ServeHTTP (proxy : Proxy) (req : Request) (wd : World)
  : World :=
  match Router_Match (router proxy) req with
  | Some _ => newHandler proxy req wd
  | None => notFound proxy req wd
  end.
End Contract.

(** [New], past the points where it can fail (the JSON round trip of the
    document and [url.Parse]): [doc] and [backend] stand for what those
    steps produced, the document as [interface{}] and the single-host
    reverse proxy.  The second component is the log output. *)
Definition New `{!Collaborators} (s : Swagger) (doc : Doc)
           (backend : Request → prog) (opts : list (Proxy → Proxy))
  : Proxy * list string :=
  let proxy := mkProxy "http://localhost:8080" false [] ∅ backend doc in
  let proxy := foldl (λ p opt, opt p) proxy opts in
  registerPaths (BasePath s) (Paths s) (proxy, []).


(** ** Vocabulary of the specification *)

(** The argument of the last [WriteHeader] among [cs], if there is one. *)
Definition last_WriteHeader (cs : list call) : option Z :=
  last (omap (λ c, match c with CallWriteHeader s => Some s | _ => None end) cs).

(** All the bytes passed to [Write] among [cs], in order. *)
Definition written (cs : list call) : bytes :=
  concat (omap (λ c, match c with CallWrite p => Some p | _ => None end) cs).

Section Vocabulary.
Context `{!Collaborators}.

(** The methods of a path item in the order of precedence the
    specification gives. *)
Definition precedence (props : PathItem)
  : list (string * option Operation) :=
  [ ("DELETE", pi_Delete props); ("GET", pi_Get props);
    ("HEAD", pi_Head props); ("OPTIONS", pi_Options props);
    ("PATCH", pi_Patch props); ("POST", pi_Post props);
    ("PUT", pi_Put props) ].

(** "First present wins". *)
Definition first_declared (props : PathItem) : option (string * Operation) :=
  head (omap (λ '(m, o), (λ op, (m, op)) <$> o) (precedence props)).

(** The route a path item contributes under a base path. *)
Definition route_of (base : string) (entry : string * PathItem)
  : option (Route * Operation) :=
  (λ '(m, op), (mkRoute (base +:+ entry.1) (Some [m]), op))
    <$> first_declared entry.2.

(** The violations of the header contracts, one per offending header. *)
Definition header_violations (hs : list (string * spec_Header))
           (header : Header) : list error :=
  omap (λ '(key, val), validateHeaderValue key (Header_Get header key) val) hs.

(** The violations the schema validator finds, none without a schema. *)
Definition schema_violations (proxy : Proxy) (resp : spec_Response)
           (data : Value) : list error :=
  match Schema_ resp with
  | Some schema => SchemaValidator_Validate schema (doc proxy) data
  | None => []
  end.

(** A header that is absent or empty, and one that is present but
    rejected by the parser of its declared format. *)
Definition missing (header : Header) (key : string) : Prop :=
  Header_Get header key = "".
Definition malformed (header : Header) (key : string) (spec : spec_Header)
  : Prop :=
  Header_Get header key ≠ ""
  ∧ ((Format spec = "int32"
      ∧ (swag_ConvertInt32 (Header_Get header key)).2 ≠ None)
     ∨ (Format spec = "date-time"
        ∧ (strfmt_ParseDateTime (Header_Get header key)).2 ≠ None)).

(** What the recorder holds when the handler that [Handler] wraps has
    returned. *)
Definition recorded {W : Type} `{!ResponseWriter W} (next : Request → prog)
           (req : Request) (wd : World (W:=W)) : WriterRecorder W bytes :=
  ServeHTTP (next req) (NewWriterRecorder (sink wd)).
End Vocabulary.

(** ** Test doubles, to run the model on concrete inputs *)

(** A response writer that records the calls made on it and accepts every
    byte, in the manner of [httptest.ResponseRecorder]. *)
Record Conn : Type := mkConn {
  conn_header : Header;
  conn_calls : list call
}.

#[export] Instance Conn_ResponseWriter : ResponseWriter Conn := {|
  rw_Header c := conn_header c;
  rw_Header_update f c := mkConn (f (conn_header c)) (conn_calls c);
  rw_Write p c :=
    (mkConn (conn_header c) (conn_calls c ++ [CallWrite p]),
     (Z.of_nat (length p), None));
  rw_WriteHeader s c :=
    mkConn (conn_header c) (conn_calls c ++ [CallWriteHeader s])
|}.

(** A buffer that holds at most four bytes and refuses a write that would
    take it beyond. *)
Record LimitedBuffer : Type := mkLimited { lb_bytes : bytes }.

#[export] Instance LimitedBuffer_Buffer : Buffer LimitedBuffer := {|
  buf_zero := mkLimited [];
  buf_Write b p :=
    if decide (length (lb_bytes b) + length p ≤ 4)
    then (mkLimited (lb_bytes b ++ p), (Z.of_nat (length p), None))
    else (b, (0%Z, Some (Errorf "buffer full")));
  buf_Bytes b := lb_bytes b
|}.

(** Stand-ins for the collaborators: a decoder that rejects the empty input
    and returns any other input as it is, parsers that know one good value
    each, a schema that is the least length of an acceptable body, and
    templates that match literally. *)
Definition stub : Collaborators := {|
  Schema := nat;
  Doc := unit;
  Value := bytes;
  DateTime := unit;
  mux_path_match tpl path := bool_decide (tpl = path);
  json_Unmarshal body :=
    match body with
    | [] => inr (Errorf "unexpected end of JSON input")
    | _ => inl body
    end;
  swag_ConvertInt32 v :=
    if bool_decide (v = "42") then (42%Z, None)
    else (0%Z, Some (Errorf "invalid syntax"));
  strfmt_ParseDateTime v :=
    if bool_decide (v = "2017-03-01T00:00:00Z") then (tt, None)
    else (tt, Some (Errorf "cannot parse as date-time"));
  SchemaValidator_Validate schema _ data :=
    if decide (schema ≤ length data) then []
    else [Errorf "body is too short"];
  CanonicalMIMEHeaderKey key := key
|}.

(** ** Sample inputs *)

Definition hi : bytes := [x68; x69].
Definition abc : bytes := [x61; x62; x63].

(** Backends: one that answers 200 with a body, one that writes a body and
    leaves the status alone, one that answers 404, one that answers 204
    with no body. *)
Definition say_hi : Request → prog :=
  λ _, DoWriteHeader 200 (DoWrite hi (λ _, Return)).
Definition just_write : Request → prog := λ _, DoWrite hi (λ _, Return).
Definition say_404 : Request → prog :=
  λ _, DoWriteHeader 404 (DoWrite hi (λ _, Return)).
Definition say_204 : Request → prog := λ _, DoWriteHeader 204 Return.

Definition get_ping : Request := mkRequest "GET" "/ping".

Definition plain : @spec_Response stub := mkResponse (H:=stub) [] None.
Definition op_ping : @Operation stub :=
  mkOperation (H:=stub) (mkResponses (H:=stub) (<[200%Z := plain]> (<[204%Z := plain]> ∅))).

(** A path item that declares GET and POST, and one that declares
    nothing. *)
Definition item_get_post : @PathItem stub :=
  mkPathItem (H:=stub) (Some op_ping) None (Some op_ping) None None None None.

(** A proxy with no route, and the proxy [New] builds for the document
    whose only path is [/ping] with [item_get_post]. *)
Definition bare : @Proxy stub :=
  mkProxy (H:=stub) "http://localhost:8080" false [] ∅ say_hi tt.
Definition served : @Proxy stub :=
  (New (H:=stub) (mkSwagger "" [("/ping", item_get_post)]) tt say_hi []).1.

Definition fresh : @World stub Conn := mkWorld (H:=stub) (mkConn ∅ []) [] [].

(** A response contract with two declared headers, and response headers
    where the first is malformed and the second is absent. *)
Definition two_headers : @spec_Response stub :=
  mkResponse (H:=stub) [("X-Rate-Limit", mkHeader "int32");
              ("X-Expires", mkHeader "date-time")] None.
Definition bad_headers : Header := {[ "X-Rate-Limit" := ["many"] ]}.

(** A recorder over a limited buffer that already holds three bytes. *)
Definition nearly_full : WriterRecorder Conn LimitedBuffer :=
  mkWriterRecorder (mkConn ∅ []) 0%Z (mkLimited abc).

(** ** Further vocabulary *)

(** A buffer whose [Write] never returns an error, as [bytes.Buffer]. *)
Definition never_fails (B : Type) `{!Buffer B} : Prop :=
  ∀ (b : B) (p : bytes), (buf_Write b p).2.2 = None.

Section MoreVocabulary.
Context `{!Collaborators}.


(** What the reporter is told about a validated response. *)
Definition verdict (req : Request) (res : option error) : notification :=
  match res with
  | Some err => Error req err
  | None => Success req
  end.

(** A declared header whose check finds nothing to report. *)
Definition header_passes (header : Header) (entry : string * spec_Header)
  : Prop :=
  validateHeaderValue entry.1 (Header_Get header entry.1) entry.2 = None.

(** The line [registerPaths] prints for a path item when [verbose] is set. *)
Definition log_line (base : string) (entry : string * PathItem)
  : option string :=
  (λ '(m, _), "Register " +:+ m +:+ " " +:+ base +:+ entry.1)
    <$> first_declared entry.2.



End MoreVocabulary.

(** ** The recorder *)

Section RecorderProperties.
Context {W B : Type} `{!ResponseWriter W} `{!Buffer B}.
Implicit Types (w : WriterRecorder W B) (h : prog).

Lemma Write_body w p :
  wr_body (Write p w).1 = (buf_Write (wr_body w) p).1.
Proof.
  unfold Write. destruct (buf_Write (wr_body w) p) as [b' [n [e|]]]; [done|].
  by destruct (rw_Write p (wr_ResponseWriter w)).
Qed.

Lemma Write_status w p : Status (Write p w).1 = Status w.
Proof.
  unfold Write, Status.
  destruct (buf_Write (wr_body w) p) as [b' [n [e|]]]; [done|].
  by destruct (rw_Write p (wr_ResponseWriter w)).
Qed.

(** C8. [Write] appends to the buffer first, whatever happens next.  When
    the append fails, [Write] returns the buffer's count and error and the
    wrapped writer is left as it was; the result is the same whatever the
    wrapped writer's own [Write] would do, so it was not called.  When the
    append succeeds, the wrapped writer receives the same bytes and its
    result is the result of [Write]. *)
Theorem Write_buffer_first w p :
  wr_body (Write p w).1 = (buf_Write (wr_body w) p).1
  ∧ (∀ e, (buf_Write (wr_body w) p).2.2 = Some e →
       (Write p w).2 = ((buf_Write (wr_body w) p).2.1, Some e)
       ∧ wr_ResponseWriter (Write p w).1 = wr_ResponseWriter w
       ∧ ∀ RW' : ResponseWriter W,
           @Write W B RW' _ p w = Write p w)
  ∧ ((buf_Write (wr_body w) p).2.2 = None →
       (Write p w).2 = (rw_Write p (wr_ResponseWriter w)).2
       ∧ wr_ResponseWriter (Write p w).1
         = (rw_Write p (wr_ResponseWriter w)).1).
Proof.
  split; [apply Write_body|].
  unfold Write.
  destruct (buf_Write (wr_body w) p) as [b' [n [e|]]]; simpl.
  - split; [|done]. intros e' [= <-]. done.
  - split; [done|]. intros _.
    by destruct (rw_Write p (wr_ResponseWriter w)).
Qed.

Lemma Status_ServeHTTP h : ∀ w,
  Status (ServeHTTP h w) = default (Status w) (last_WriteHeader (calls_of h w)).
Proof.
  assert (Hcons : ∀ s c cs,
    default s (last_WriteHeader (c :: cs))
    = default (match c with CallWriteHeader s' => s' | _ => s end)
              (last_WriteHeader cs)).
  { intros s c cs. unfold last_WriteHeader.
    destruct c; simpl; try done.
    rewrite last_cons. by destruct (last _). }
  induction h as [|f k IH|k IH|s k IH|p k IH]; intros w; simpl.
  - done.
  - by rewrite Hcons, IH.
  - by rewrite Hcons, IH.
  - by rewrite Hcons, IH.
  - pose proof (Write_status w p) as Hs.
    destruct (Write p w) as [w' r]. simpl in Hs.
    by rewrite Hcons, IH, Hs.
Qed.
End RecorderProperties.

(** ** The recorder under a handler *)

Section Transparency.
Context {W : Type} `{!ResponseWriter W}.
Implicit Types (wr : WriterRecorder W bytes) (h : prog).

(** With Go's [bytes.Buffer] the recorder is invisible to the handler and
    to the wrapped writer. *)
Lemma recorder_transparent h : ∀ wr,
  wr_ResponseWriter (ServeHTTP h wr) = ServeHTTP h (wr_ResponseWriter wr)
  ∧ calls_of h wr = calls_of h (wr_ResponseWriter wr).
Proof.
  induction h as [|f k IH|k IH|s k IH|p k IH]; intros wr;
    cbn [ServeHTTP calls_of].
  - done.
  - destruct (IH (rw_Header_update f wr)) as [-> ->]. done.
  - destruct (IH (rw_Header wr) wr) as [-> ->]. done.
  - destruct (IH (rw_WriteHeader s wr)) as [-> ->]. done.
  - change (rw_Write p wr) with (Write p wr). unfold Write. cbn [buf_Write bytes_Buffer].
    destruct (rw_Write p (wr_ResponseWriter wr)) as [w' r].
    destruct (IH r (mkWriterRecorder w' (wr_status wr) (wr_body wr ++ p)))
      as [-> ->]. done.
Qed.

(** The buffered copy is what the handler wrote, byte for byte. *)
Lemma Body_ServeHTTP h : ∀ wr,
  Body (ServeHTTP h wr) = Body wr ++ written (calls_of h wr).
Proof.
  induction h as [|f k IH|k IH|s k IH|p k IH]; intros wr;
    cbn [ServeHTTP calls_of].
  - unfold written. simpl. by rewrite app_nil_r.
  - by rewrite IH.
  - by rewrite IH.
  - by rewrite IH.
  - change (rw_Write p wr) with (Write p wr). unfold Write. cbn [buf_Write bytes_Buffer].
    destruct (rw_Write p (wr_ResponseWriter wr)) as [w' r].
    rewrite IH. unfold Body, written. simpl. by rewrite app_assoc.
Qed.

Lemma last_WriteHeader_absent (cs : list call) :
  (∀ s, CallWriteHeader s ∉ cs) → last_WriteHeader cs = None.
Proof.
  intros Hno. unfold last_WriteHeader.
  assert (omap (λ c, match c with CallWriteHeader s => Some s | _ => None end)
               cs = []) as ->; [|done].
  induction cs as [|c cs IH]; [done|]. simpl.
  destruct c as [|s|p]; simpl.
  - apply IH. intros s Hs. apply (Hno s). by right.
  - exfalso. apply (Hno s). by left.
  - apply IH. intros s Hs. apply (Hno s). by right.
Qed.
End Transparency.

(** ** Validation *)

Section ValidationProperties.
Context `{!Collaborators}.
Implicit Types (proxy : Proxy) (header : Header) (resp : spec_Response).

Lemma validateHeaderValue_missing key (spec : spec_Header) :
  validateHeaderValue key "" spec
  = Some (Errorf (key +:+ " in headers is missing")).
Proof. unfold validateHeaderValue. by rewrite decide_True. Qed.

Lemma validateHeaderValue_int32 key value (spec : spec_Header) :
  value ≠ "" → Format spec = "int32" →
  validateHeaderValue key value spec = (swag_ConvertInt32 value).2.
Proof.
  intros Hv Hf. unfold validateHeaderValue.
  rewrite decide_False by done. by rewrite decide_True.
Qed.

Lemma validateHeaderValue_date_time key value (spec : spec_Header) :
  value ≠ "" → Format spec = "date-time" →
  validateHeaderValue key value spec = (strfmt_ParseDateTime value).2.
Proof.
  intros Hv Hf. unfold validateHeaderValue.
  rewrite decide_False by done.
  rewrite decide_False by (rewrite Hf; discriminate).
  by rewrite decide_True.
Qed.

Lemma validateHeaderValue_other key value (spec : spec_Header) :
  value ≠ "" → Format spec ≠ "int32" → Format spec ≠ "date-time" →
  validateHeaderValue key value spec = None.
Proof. intros Hv H32 Hdt. unfold validateHeaderValue. by rewrite !decide_False. Qed.

(** C5. The three outcomes of checking one declared header against the
    value the response carries under it: a "missing" violation when the
    header is absent or its value is empty; the parser's error when the
    value is not empty, the format is [int32] or [date-time] and the
    parser of that format rejects the value; nothing when the value is
    not empty and the format is any other. *)
Theorem validateHeaderValue_outcomes header key (spec : spec_Header) :
  let value := Header_Get header key in
  (header !! CanonicalMIMEHeaderKey key = None → value = "")
  ∧ (value = "" →
       validateHeaderValue key value spec
       = Some (Errorf (key +:+ " in headers is missing")))
  ∧ (∀ e, value ≠ "" → Format spec = "int32" →
       (swag_ConvertInt32 value).2 = Some e →
       validateHeaderValue key value spec = Some e)
  ∧ (∀ e, value ≠ "" → Format spec = "date-time" →
       (strfmt_ParseDateTime value).2 = Some e →
       validateHeaderValue key value spec = Some e)
  ∧ (value ≠ "" → Format spec ≠ "int32" → Format spec ≠ "date-time" →
       validateHeaderValue key value spec = None).
Proof.
  intros value. split; [|split; [|split; [|split]]].
  - intros Habs. unfold value, Header_Get. by rewrite Habs.
  - intros ->. apply validateHeaderValue_missing.
  - intros e Hv Hf He. by rewrite validateHeaderValue_int32.
  - intros e Hv Hf He. by rewrite validateHeaderValue_date_time.
  - apply validateHeaderValue_other.
Qed.

(** The loop over the declared headers collects one violation per
    offending header and stops at none. *)
Lemma range_Headers_collects hs header : ∀ errs,
  (range_Headers hs header errs).1 = errs ++ header_violations hs header.
Proof.
  induction hs as [|[key val] hs IH]; intros errs; simpl.
  - by rewrite app_nil_r.
  - unfold header_violations. simpl.
    destruct (validateHeaderValue key (Header_Get header key) val) as [e|];
      simpl.
    + specialize (IH (errs ++ [e])).
      destruct (range_Headers hs header (errs ++ [e])) as [r t].
      simpl in *. rewrite IH. by rewrite <- app_assoc.
    + specialize (IH errs).
      by destruct (range_Headers hs header errs) as [r t].
Qed.

Lemma Validate_result proxy status header body resp data :
  json_Unmarshal body = inl data →
  (Validate proxy status header body resp).1
  = match header_violations (Headers resp) header
          ++ schema_violations proxy resp data with
    | [] => None
    | errs => Some (CompositeError errs)
    end.
Proof.
  intros Hjson. unfold Validate, schema_violations. simpl. rewrite Hjson.
  pose proof (range_Headers_collects (Headers resp) header []) as Hh.
  destruct (range_Headers (Headers resp) header []) as [hv t].
  simpl in Hh. subst hv. simpl.
  destruct (Schema_ resp) as [schema|]; simpl.
  - unfold HasErrors.
    destruct (SchemaValidator_Validate schema (doc proxy) data) as [|e es].
    + simpl. rewrite app_nil_r.
      by destruct (header_violations (Headers resp) header).
    + simpl.
      by destruct (header_violations (Headers resp) header ++ e :: es) eqn:E.
  - rewrite app_nil_r.
    by destruct (header_violations (Headers resp) header).
Qed.

(** C3. When the body parses, [Validate] returns nil exactly when the
    header checks and the schema check found nothing, and otherwise one
    composite error that carries every violation found.  The header loop
    does not stop at a failure: with two declared headers, one missing
    and one malformed, and a body the schema accepts, the composite error
    holds exactly two violations. *)
Theorem Validate_aggregates proxy status header body resp data :
  json_Unmarshal body = inl data →
  let violations := header_violations (Headers resp) header
                    ++ schema_violations proxy resp data in
  ((Validate proxy status header body resp).1 = None ↔ violations = [])
  ∧ (violations ≠ [] →
       (Validate proxy status header body resp).1
       = Some (CompositeError violations))
  ∧ (∀ k1 s1 k2 s2,
       Headers resp = [(k1, s1); (k2, s2)] →
       (missing header k1 ∧ malformed header k2 s2)
       ∨ (malformed header k1 s1 ∧ missing header k2) →
       schema_violations proxy resp data = [] →
       ∃ e1 e2,
         validateHeaderValue k1 (Header_Get header k1) s1 = Some e1
         ∧ validateHeaderValue k2 (Header_Get header k2) s2 = Some e2
         ∧ (Validate proxy status header body resp).1
           = Some (CompositeError [e1; e2])).
Proof.
  intros Hjson violations.
  rewrite (Validate_result _ _ _ _ _ _ Hjson). fold violations.
  split; [|split].
  - by destruct violations.
  - by destruct violations.
  - intros k1 s1 k2 s2 Hhs Hcase Hschema.
    unfold violations. rewrite Hschema, app_nil_r, Hhs.
    unfold header_violations. cbn [omap list_omap].
    assert (Hmiss : ∀ k s, missing header k →
              ∃ e, validateHeaderValue k (Header_Get header k) s = Some e).
    { intros k s Hk. unfold missing in Hk. rewrite Hk. eexists.
      apply validateHeaderValue_missing. }
    assert (Hmal : ∀ k s, malformed header k s →
              ∃ e, validateHeaderValue k (Header_Get header k) s = Some e).
    { intros k s [Hne [[Hf He]|[Hf He]]].
      - rewrite validateHeaderValue_int32 by done.
        destruct (swag_ConvertInt32 (Header_Get header k)).2 as [e|];
          [by exists e|done].
      - rewrite validateHeaderValue_date_time by done.
        destruct (strfmt_ParseDateTime (Header_Get header k)).2 as [e|];
          [by exists e|done]. }
    destruct Hcase as [[H1 H2]|[H1 H2]].
    + destruct (Hmiss k1 s1 H1) as [e1 ->].
      destruct (Hmal k2 s2 H2) as [e2 ->]. by exists e1, e2.
    + destruct (Hmal k1 s1 H1) as [e1 ->].
      destruct (Hmiss k2 s2 H2) as [e2 ->]. by exists e1, e2.
Qed.

(** C4. When the body does not parse, [Validate] returns the parser's
    error at once: the only collaborator it has called is the JSON
    decoder, so no header was checked and the schema validator was not
    run, and neither the headers nor the contract change the result. *)
Theorem Validate_parse_failure proxy status header body resp err :
  json_Unmarshal body = inr err →
  Validate proxy status header body resp
  = (Some err, [ev_Validate status body; ev_json_Unmarshal body]).
Proof. intros Hjson. unfold Validate. simpl. by rewrite Hjson. Qed.

(** Every run of [Validate] leaves its mark in the trace. *)
Lemma Validate_leaves_trace proxy status header body resp :
  ∃ t, (Validate proxy status header body resp).2
       = ev_Validate status body :: t.
Proof.
  unfold Validate. cbn [tbind emit].
  repeat case_match; simpl; eauto.
Qed.
End ValidationProperties.

(** ** Route registration *)

Section RegistrationProperties.
Context `{!Collaborators}.
Implicit Types (proxy p : Proxy) (item : PathItem).

Lemma getOperations_first_declared item :
  getOperations item
  = match first_declared item with
    | Some (m, op) => {[ m := op ]}
    | None => ∅
    end.
Proof.
  unfold getOperations, first_declared, precedence.
  destruct item as [get put post del opts hd patch]. simpl.
  destruct del; [done|]. destruct get; [done|]. destruct hd; [done|].
  destruct opts; [done|]. destruct patch; [done|]. destruct post; [done|].
  by destruct put.
Qed.

Lemma map_to_list_getOperations item :
  map_to_list (getOperations item) = option_list (first_declared item).
Proof.
  rewrite getOperations_first_declared.
  destruct (first_declared item) as [[m op]|]; simpl.
  - apply map_to_list_singleton.
  - apply map_to_list_empty.
Qed.

Lemma Route_Methods_last ms (r : list Route) rt :
  Route_Methods ms (length r) (r ++ [rt])
  = r ++ [mkRoute (rt_template rt) (Some ms)].
Proof.
  unfold Route_Methods. induction r as [|x r IH]; simpl; [done|].
  f_equal. exact IH.
Qed.

Lemma register_spec base path p out m op :
  register base path (p, out) (m, op)
  = (mkProxy (target p) (verbose p)
             (router p ++ [mkRoute (base +:+ path) (Some [m])])
             (<[length (router p) := op]> (routes p))
             (reverseProxy p) (doc p),
     if verbose p then out ++ ["Register " +:+ m +:+ " " +:+ base +:+ path]
     else out).
Proof.
  unfold register, Router_Handle. by rewrite Route_Methods_last.
Qed.

Lemma registerPaths_cons base entry paths st :
  registerPaths base (entry :: paths) st
  = registerPaths base paths (register_item base st entry).
Proof. done. Qed.

Lemma register_item_router base p out entry :
  router (register_item base (p, out) entry).1
  = router p ++ (option_list (route_of base entry)).*1.
Proof.
  unfold register_item, route_of. destruct entry as [path item].
  rewrite map_to_list_getOperations. cbn [fst snd].
  destruct (first_declared item) as [[m op]|].
  - change (option_list (Some (m, op))) with [(m, op)]. cbn [foldl].
    by rewrite register_spec.
  - simpl. by rewrite app_nil_r.
Qed.

Lemma register_item_routes base p out entry :
  routes (register_item base (p, out) entry).1
  = match route_of base entry with
    | Some (_, op) => <[length (router p) := op]> (routes p)
    | None => routes p
    end.
Proof.
  unfold register_item, route_of. destruct entry as [path item].
  rewrite map_to_list_getOperations. cbn [fst snd].
  destruct (first_declared item) as [[m op]|]; [|done].
  change (option_list (Some (m, op))) with [(m, op)]. cbn [foldl].
  by rewrite register_spec.
Qed.

Lemma registerPaths_router base paths : ∀ p out,
  router (registerPaths base paths (p, out)).1
  = router p ++ (omap (route_of base) paths).*1.
Proof.
  induction paths as [|entry paths IH]; intros p out.
  - simpl. by rewrite app_nil_r.
  - rewrite registerPaths_cons.
    pose proof (register_item_router base p out entry) as Hr.
    destruct (register_item base (p, out) entry) as [p' out'].
    rewrite IH. simpl in Hr. rewrite Hr. simpl.
    destruct (route_of base entry) as [[rt op]|]; simpl.
    + by rewrite <- app_assoc.
    + by rewrite app_nil_r.
Qed.

Lemma registerPaths_routes_old base paths : ∀ p out j,
  j < length (router p) →
  routes (registerPaths base paths (p, out)).1 !! j = routes p !! j.
Proof.
  induction paths as [|entry paths IH]; intros p out j Hj; [done|].
  rewrite registerPaths_cons.
  pose proof (register_item_router base p out entry) as Hr.
  pose proof (register_item_routes base p out entry) as Hm.
  destruct (register_item base (p, out) entry) as [p' out'].
  simpl in Hr, Hm. rewrite IH.
  - rewrite Hm. destruct (route_of base entry) as [[rt op]|]; [|done].
    rewrite lookup_insert_ne; [done|lia].
  - rewrite Hr, length_app. lia.
Qed.

Lemma registerPaths_routes base paths : ∀ p out i e,
  omap (route_of base) paths !! i = Some e →
  routes (registerPaths base paths (p, out)).1 !! (length (router p) + i)
  = Some e.2.
Proof.
  induction paths as [|entry paths IH]; intros p out i e Hi; [done|].
  rewrite registerPaths_cons.
  pose proof (register_item_router base p out entry) as Hr.
  pose proof (register_item_routes base p out entry) as Hm.
  destruct (register_item base (p, out) entry) as [p' out'].
  simpl in Hr, Hm, Hi.
  destruct (route_of base entry) as [[rt op]|]; simpl in *.
  - destruct i as [|i]; simpl in Hi.
    + injection Hi as <-. rewrite registerPaths_routes_old.
      * rewrite Hm, Nat.add_0_r. apply lookup_insert_eq.
      * rewrite Hr, length_app. simpl. lia.
    + specialize (IH p' out' i e Hi). rewrite Hr, length_app in IH.
      simpl in IH. rewrite <- IH. f_equal. lia.
  - specialize (IH p' out' i e Hi). rewrite Hr, app_nil_r in IH. done.
Qed.
End RegistrationProperties.

(** ** The dispatch core *)

Section DispatchProperties.
Context `{!Collaborators} {W : Type} `{!ResponseWriter W}.
Implicit Types (proxy : Proxy) (next : Request → prog) (req : Request)
               (wd : World (W:=W)).

Lemma Handler_matched proxy next req wd route op :
  Router_Match (router proxy) req = Some route →
  routes proxy !! route = Some op →
  Handler proxy next req wd
  = let wr := recorded next req wd in
    let wd' := mkWorld (wr_ResponseWriter wr) (reports wd) (events wd) in
    match StatusCodeResponses (Responses op) !! Status wr with
    | None =>
        report (Error req (Errorf ("Server Status " +:+ pretty (Status wr)
                                   +:+ " not defined by the spec"))) wd'
    | Some specResp =>
        let '(res, t) :=
          Validate proxy (Status wr) (rw_Header wr) (Body wr) specResp in
        let wd'' := mkWorld (sink wd') (reports wd') (events wd' ++ t) in
        match res with
        | Some err => report (Error req err) wd''
        | None => report (Success req) wd''
        end
    end.
Proof.
  intros Hm Hop. unfold Handler. rewrite Hm. simpl. by rewrite Hop.
Qed.

Lemma Handler_unmatched proxy next req wd :
  Router_Match (router proxy) req ≫= (λ route, routes proxy !! route) = None →
  Handler proxy next req wd
  = report (Warning req "Route not defined on the Spec") wd.
Proof.
  intros Hop. unfold Handler.
  destruct (Router_Match (router proxy) req) as [route|]; simpl in *;
    [by rewrite Hop|done].
Qed.

Lemma notFound_forwards proxy req wd :
  sink (notFound proxy req wd) = ServeHTTP (reverseProxy proxy req) (sink wd)
  ∧ reports (notFound proxy req wd)
    = reports wd ++ [Warning req "Route not defined on the Spec"].
Proof. done. Qed.

(** C1. For a matched request the caller's response writer ends in the
    state the backend handler alone would have left it in: every
    [WriteHeader], every header mutation and every written byte reached
    it, and nothing else did.  This holds for every choice of the
    collaborators, hence for every validation outcome.  Validation runs
    after the handler has returned, on the recorder's copy, which is the
    bytes the handler wrote. *)
Theorem Handler_pass_through proxy next req wd route op :
  Router_Match (router proxy) req = Some route →
  routes proxy !! route = Some op →
  sink (Handler proxy next req wd) = ServeHTTP (next req) (sink wd)
  ∧ Body (recorded next req wd) = written (calls_of (next req) (sink wd))
  ∧ rw_Header (recorded next req wd)
    = rw_Header (ServeHTTP (next req) (sink wd))
  ∧ ∀ specResp,
      StatusCodeResponses (Responses op) !! Status (recorded next req wd)
      = Some specResp →
      events (Handler proxy next req wd)
      = events wd
        ++ (Validate proxy (Status (recorded next req wd))
                     (rw_Header (ServeHTTP (next req) (sink wd)))
                     (written (calls_of (next req) (sink wd)))
                     specResp).2.
Proof.
  intros Hm Hop.
  destruct (recorder_transparent (next req)
              (NewWriterRecorder (B:=bytes) (sink wd))) as [Hsink Hcalls].
  assert (Hbody : Body (recorded next req wd)
                  = written (calls_of (next req) (sink wd))).
  { unfold recorded. by rewrite Body_ServeHTTP, Hcalls. }
  assert (Hhdr : rw_Header (recorded next req wd)
                 = rw_Header (ServeHTTP (next req) (sink wd))).
  { unfold recorded. simpl. by rewrite Hsink. }
  rewrite (Handler_matched _ _ _ _ _ _ Hm Hop). cbn zeta.
  split; [|split; [done|split; [done|]]].
  - destruct (StatusCodeResponses (Responses op) !! _) as [specResp|];
      [|exact Hsink].
    destruct (Validate _ _ _ _ _) as [[err|] t]; exact Hsink.
  - intros specResp ->. rewrite Hhdr, Hbody.
    by destruct (Validate _ _ _ _ _) as [[err|] t].
Qed.

(** C6. For a matched request whose recorded status the operation does
    not declare, the reporter receives one notification more, the error
    "Server Status ... not defined by the spec", and the trace of
    validation calls is unchanged: [Validate] was not run. *)
Theorem Handler_status_not_defined proxy next req wd route op :
  Router_Match (router proxy) req = Some route →
  routes proxy !! route = Some op →
  StatusCodeResponses (Responses op) !! Status (recorded next req wd) = None →
  reports (Handler proxy next req wd)
  = reports wd
    ++ [Error req (Errorf ("Server Status "
                           +:+ pretty (Status (recorded next req wd))
                           +:+ " not defined by the spec"))]
  ∧ events (Handler proxy next req wd) = events wd.
Proof.
  intros Hm Hop Hst.
  rewrite (Handler_matched _ _ _ _ _ _ Hm Hop). cbn zeta. by rewrite Hst.
Qed.

(** C9. Given that the JSON decoder rejects the empty input, as
    encoding/json does, [Validate] on an empty body returns that error
    whatever the response contract declares, also when it declares no
    header and no schema; so a matched request whose backend wrote no
    body under a declared status is reported as an error and never as a
    success. *)
Theorem Validate_empty_body err :
  json_Unmarshal [] = inr err →
  (∀ proxy status header resp,
     (Validate proxy status header [] resp).1 = Some err)
  ∧ (∀ proxy status header,
       (Validate proxy status header [] (mkResponse [] None)).1 ≠ None)
  ∧ (∀ proxy next req wd route op specResp,
       Router_Match (router proxy) req = Some route →
       routes proxy !! route = Some op →
       StatusCodeResponses (Responses op) !! Status (recorded next req wd)
       = Some specResp →
       Body (recorded next req wd) = [] →
       reports (Handler proxy next req wd) = reports wd ++ [Error req err]).
Proof.
  intros Hjson.
  assert (Hv : ∀ proxy status header resp,
             (Validate proxy status header [] resp).1 = Some err).
  { intros. unfold Validate. simpl. by rewrite Hjson. }
  split; [exact Hv|split].
  - intros proxy status header. by rewrite Hv.
  - intros proxy next req wd route op specResp Hm Hop Hst Hbody.
    rewrite (Handler_matched _ _ _ _ _ _ Hm Hop). cbn zeta.
    rewrite Hst, Hbody.
    specialize (Hv proxy (Status (recorded next req wd))
                   (rw_Header (recorded next req wd)) specResp).
    destruct (Validate _ _ _ _ _) as [res t]. simpl in Hv. by subst res.
Qed.

(** C10. A fresh recorder has status 0; after a handler has run, the
    status is the argument of the last [WriteHeader] the handler called,
    and still 0 if it called none.  So when the backend handler writes
    without calling [WriteHeader], the dispatch core looks the response
    up under status 0: an operation that declares 200 and not 0 gets the
    error "Server Status 0 not defined by the spec". *)
Theorem Status_last_WriteHeader :
  (∀ (B : Type) (Buf : Buffer B) (w : W),
     Status (NewWriterRecorder (B:=B) w) = 0%Z)
  ∧ (∀ (B : Type) (Buf : Buffer B) h (wr : WriterRecorder W B),
       Status (ServeHTTP h wr)
       = default (Status wr) (last_WriteHeader (calls_of h wr)))
  ∧ (∀ proxy next req wd route op,
       Router_Match (router proxy) req = Some route →
       routes proxy !! route = Some op →
       (∀ s, CallWriteHeader s ∉ calls_of (next req) (sink wd)) →
       Status (recorded next req wd) = 0%Z
       ∧ (StatusCodeResponses (Responses op) !! 0%Z = None →
          reports (Handler proxy next req wd)
          = reports wd
            ++ [Error req
                  (Errorf "Server Status 0 not defined by the spec")])).
Proof.
  split; [done|split; [intros; apply Status_ServeHTTP|]].
  intros proxy next req wd route op Hm Hop Hno.
  assert (Hst : Status (recorded next req wd) = 0%Z).
  { unfold recorded. rewrite Status_ServeHTTP.
    destruct (recorder_transparent (next req)
                (NewWriterRecorder (B:=bytes) (sink wd))) as [_ ->].
    simpl. by rewrite last_WriteHeader_absent. }
  split; [done|]. intros Hnone.
  rewrite (Handler_matched _ _ _ _ _ _ Hm Hop). cbn zeta.
  by rewrite Hst, Hnone.
Qed.

End DispatchProperties.

(** ** The two ways to an unmatched route *)

Section Unmatched.
Context `{!Collaborators} {W : Type} `{!ResponseWriter W}.
Implicit Types (proxy p : Proxy) (req : Request) (wd : World (W:=W)).

(** Through the router an unmatched request reaches [notFound], which
    warns and forwards. *)
Lemma Router_unmatched_forwards proxy req wd :
  Router_Match (router proxy) req = None →
  sink (Router_ServeHTTP proxy req wd)
  = ServeHTTP (reverseProxy proxy req) (sink wd)
  ∧ reports (Router_ServeHTTP proxy req wd)
    = reports wd ++ [Warning req "Route not defined on the Spec"].
Proof. intros Hm. unfold Router_ServeHTTP. by rewrite Hm. Qed.

(** Inside [Handler] an unmatched request is warned about and the wrapped
    handler is not run: the caller's writer is left untouched. *)
Lemma Handler_unmatched_sink proxy next req wd :
  Router_Match (router proxy) req ≫= (λ route, routes proxy !! route) = None →
  sink (Handler proxy next req wd) = sink wd
  ∧ reports (Handler proxy next req wd)
    = reports wd ++ [Warning req "Route not defined on the Spec"].
Proof. intros Hop. by rewrite Handler_unmatched. Qed.

(** Every route that registration adds to an empty router is bound to an
    operation, so a request that the router dispatches to [newHandler] is
    matched inside it as well. *)
Lemma registered_routes_bound base paths p out i :
  router p = [] →
  i < length (router (registerPaths base paths (p, out)).1) →
  is_Some (routes (registerPaths base paths (p, out)).1 !! i).
Proof.
  intros Hr Hi. rewrite registerPaths_router, Hr in Hi. simpl in Hi.
  rewrite length_fmap in Hi.
  destruct (lookup_lt_is_Some_2 _ _ Hi) as [e He].
  pose proof (registerPaths_routes base paths p out i e He) as Hb.
  rewrite Hr in Hb. simpl in Hb. by exists e.2.
Qed.
End Unmatched.

(** ** Beyond the claims: the recorder with any buffer *)

Section AnyBuffer.
Context {W B : Type} `{!ResponseWriter W} `{!Buffer B}.

(** X1. Over any buffer whose [Write] never fails, the recorder cannot be
    told from the writer it wraps: a handler makes the same calls on it and
    leaves the wrapped writer as it would have left it directly. *)
Theorem recorder_invisible (h : prog) (wr : WriterRecorder W B) :
  never_fails B →
  wr_ResponseWriter (ServeHTTP h wr) = ServeHTTP h (wr_ResponseWriter wr)
  ∧ calls_of h wr = calls_of h (wr_ResponseWriter wr).
Proof.
  intros Hok. revert wr.
  induction h as [|f k IH|k IH|s k IH|p k IH]; intros wr;
    cbn [ServeHTTP calls_of].
  - done.
  - destruct (IH (rw_Header_update f wr)) as [-> ->]. done.
  - destruct (IH (rw_Header wr) wr) as [-> ->]. done.
  - destruct (IH (rw_WriteHeader s wr)) as [-> ->]. done.
  - change (rw_Write p wr) with (Write p wr). unfold Write.
    pose proof (Hok (wr_body wr) p) as Hp.
    destruct (buf_Write (wr_body wr) p) as [b' [n err]]. simpl in Hp.
    subst err.
    destruct (rw_Write p (wr_ResponseWriter wr)) as [w' r].
    destruct (IH r (mkWriterRecorder w' (wr_status wr) b')) as [-> ->].
    done.
Qed.
End AnyBuffer.

(** ** Beyond the claims: validation *)

Section MoreValidation.
Context `{!Collaborators}.
Implicit Types (proxy : Proxy) (header : Header) (resp : spec_Response).

Lemma range_Headers_trace hs header : ∀ errs,
  (range_Headers hs header errs).2
  = (λ e : string * spec_Header,
       ev_validateHeaderValue e.1 (Header_Get header e.1)) <$> hs.
Proof.
  induction hs as [|[key val] hs IH]; intros errs; [done|].
  cbn [range_Headers tbind emit fmap list_fmap fst].
  destruct (validateHeaderValue key (Header_Get header key) val) as [e|].
  - specialize (IH (errs ++ [e])).
    destruct (range_Headers hs header (errs ++ [e])) as [r t].
    simpl in *. by rewrite IH.
  - specialize (IH errs).
    destruct (range_Headers hs header errs) as [r t].
    simpl in *. by rewrite IH.
Qed.

Lemma header_violations_nil hs header :
  header_violations hs header = [] ↔ Forall (header_passes header) hs.
Proof.
  unfold header_violations, header_passes.
  induction hs as [|[key val] hs IH]; simpl.
  - split; [constructor|done].
  - destruct (validateHeaderValue key (Header_Get header key) val) as [e|]
      eqn:E; simpl.
    + split; [done|]. intros HF. inversion HF as [|? ? Hx _]; subst.
      simpl in Hx. congruence.
    + rewrite IH. split.
      * intros HF. by constructor.
      * intros HF. by inversion HF.
Qed.

(** X2. When the body parses, [Validate] checks every declared header
    once, in the order of the range and with the value [Get] returns for
    it, and then runs the schema validator exactly when the contract has
    a schema: a header that fails stops neither the remaining header
    checks nor the schema check. *)
Theorem Validate_checks_everything proxy status header body resp data :
  json_Unmarshal body = inl data →
  (Validate proxy status header body resp).2
  = [ev_Validate status body; ev_json_Unmarshal body]
    ++ ((λ e : string * spec_Header,
           ev_validateHeaderValue e.1 (Header_Get header e.1))
          <$> Headers resp)
    ++ match Schema_ resp with
       | Some schema => [ev_SchemaValidator schema data]
       | None => []
       end.
Proof.
  intros Hjson. unfold Validate. cbn [tbind emit]. rewrite Hjson.
  pose proof (range_Headers_trace (Headers resp) header []) as Ht.
  destruct (range_Headers (Headers resp) header []) as [hv t].
  simpl in Ht. subst t.
  destruct (Schema_ resp) as [schema|]; simpl; by rewrite ?app_nil_r.
Qed.

Lemma Validate_nil_cases proxy status header body resp :
  (Validate proxy status header body resp).1 = None
  ↔ ∃ data, json_Unmarshal body = inl data
            ∧ Forall (header_passes header) (Headers resp)
            ∧ schema_violations proxy resp data = [].
Proof.
  destruct (json_Unmarshal body) as [data|err] eqn:Hjson.
  - rewrite (Validate_result _ _ _ _ _ _ Hjson).
    split.
    + intros Hnone. exists data. split; [done|].
      destruct (header_violations (Headers resp) header) as [|e es] eqn:Hv;
        [|done].
      apply header_violations_nil in Hv. split; [done|]. simpl in Hnone.
      by destruct (schema_violations proxy resp data).
    + intros (data' & [= <-] & HF & Hs).
      apply header_violations_nil in HF. by rewrite HF, Hs.
  - split.
    + unfold Validate. simpl. rewrite Hjson. done.
    + intros (data & [=] & _).
Qed.

(** X3. [Validate] returns nil exactly when the body parses, every
    declared header passes its check and the schema validator, if there is
    a schema, reports nothing. *)
Theorem Validate_nil_iff proxy status header body resp :
  (Validate proxy status header body resp).1 = None
  ↔ ∃ data, json_Unmarshal body = inl data
            ∧ Forall (header_passes header) (Headers resp)
            ∧ schema_violations proxy resp data = [].
Proof. apply Validate_nil_cases. Qed.
End MoreValidation.

(** ** Beyond the claims: registration *)

Section MoreRegistration.
Context `{!Collaborators}.
Implicit Types (p : Proxy) (item : PathItem).

Lemma head_declared (l : list (string * option Operation)) m op :
  head (omap (λ '(m, o), (λ op, (m, op)) <$> o) l) = Some (m, op)
  ↔ ∃ pre post, l = pre ++ (m, Some op) :: post
                ∧ Forall (λ e, e.2 = None) pre.
Proof.
  induction l as [|[m' [op'|]] l IH]; simpl.
  - split; [done|]. intros (pre & post & Hl & _). by destruct pre.
  - split.
    + intros [= -> ->]. exists [], l. by split; [|constructor].
    + intros (pre & post & Hl & Hpre). destruct pre as [|e pre]; simpl in Hl.
      * by injection Hl as -> ->.
      * injection Hl as <- _. inversion Hpre as [|? ? He _]. done.
  - rewrite IH. split.
    + intros (pre & post & -> & Hpre). exists ((m', None) :: pre), post.
      split; [done|]. by constructor.
    + intros (pre & post & Hl & Hpre). destruct pre as [|e pre]; simpl in Hl.
      * done.
      * injection Hl as <- ->. exists pre, post. split; [done|].
        by inversion Hpre.
Qed.

(** X4. A method of a path item is handed to registration exactly when the
    item declares it and declares no method that comes before it in the
    order DELETE, GET, HEAD, OPTIONS, PATCH, POST, PUT; the operation is
    the one declared under that method. *)
Theorem getOperations_lookup item m op :
  getOperations item !! m = Some op
  ↔ ∃ pre post, precedence item = pre ++ (m, Some op) :: post
                ∧ Forall (λ e, e.2 = None) pre.
Proof.
  rewrite <- head_declared. fold (first_declared item).
  rewrite getOperations_first_declared.
  destruct (first_declared item) as [[m' op']|].
  - rewrite lookup_singleton_Some. split.
    + by intros [-> ->].
    + by intros [= -> ->].
  - by rewrite lookup_empty.
Qed.

Lemma register_item_spec base p out entry :
  register_item base (p, out) entry
  = match route_of base entry, log_line base entry with
    | Some (rt, op), Some line =>
        (mkProxy (target p) (verbose p) (router p ++ [rt])
                 (<[length (router p) := op]> (routes p))
                 (reverseProxy p) (doc p),
         if verbose p then out ++ [line] else out)
    | _, _ => (p, out)
    end.
Proof.
  unfold register_item, route_of, log_line. destruct entry as [path item].
  rewrite map_to_list_getOperations. cbn [fst snd].
  destruct (first_declared item) as [[m op]|]; [|done].
  change (option_list (Some (m, op))) with [(m, op)]. cbn [foldl].
  by rewrite register_spec.
Qed.

Lemma registerPaths_frame base paths : ∀ p out,
  target (registerPaths base paths (p, out)).1 = target p
  ∧ verbose (registerPaths base paths (p, out)).1 = verbose p
  ∧ reverseProxy (registerPaths base paths (p, out)).1 = reverseProxy p
  ∧ doc (registerPaths base paths (p, out)).1 = doc p
  ∧ (registerPaths base paths (p, out)).2
    = out ++ (if verbose p then omap (log_line base) paths else []).
Proof.
  induction paths as [|entry paths IH]; intros p out.
  - simpl. repeat split; try done. destruct (verbose p); by rewrite app_nil_r.
  - rewrite registerPaths_cons, register_item_spec.
    unfold route_of, log_line. cbn [omap list_omap].
    destruct (first_declared entry.2) as [[m op]|];
      cbn [fmap option_fmap option_map].
    + destruct (IH (mkProxy (target p) (verbose p)
                      (router p ++ [mkRoute (base +:+ entry.1) (Some [m])])
                      (<[length (router p) := op]> (routes p))
                      (reverseProxy p) (doc p))
                   (if verbose p
                    then out ++ ["Register " +:+ m +:+ " " +:+ base +:+ entry.1]
                    else out))
        as (-> & -> & -> & -> & ->).
      simpl. repeat split; try done.
      destruct (verbose p); [|done]. by rewrite <- app_assoc.
    + apply IH.
Qed.

(** X5. Registration leaves the target, the verbosity, the backend and the
    document of the proxy alone, and prints one line per registered route,
    in order, when [verbose] is set and nothing when it is not. *)
Theorem registerPaths_frame_and_log base paths p out :
  target (registerPaths base paths (p, out)).1 = target p
  ∧ verbose (registerPaths base paths (p, out)).1 = verbose p
  ∧ reverseProxy (registerPaths base paths (p, out)).1 = reverseProxy p
  ∧ doc (registerPaths base paths (p, out)).1 = doc p
  ∧ (registerPaths base paths (p, out)).2
    = out ++ (if verbose p then omap (log_line base) paths else []).
Proof. apply registerPaths_frame. Qed.

Lemma registerPaths_routes_beyond base paths : ∀ p out j,
  length (router (registerPaths base paths (p, out)).1) ≤ j →
  routes (registerPaths base paths (p, out)).1 !! j = routes p !! j.
Proof.
  induction paths as [|entry paths IH]; intros p out j Hj; [done|].
  rewrite registerPaths_cons in *.
  pose proof (register_item_router base p out entry) as Hr.
  pose proof (register_item_routes base p out entry) as Hm.
  destruct (register_item base (p, out) entry) as [p' out'].
  simpl in Hr, Hm. rewrite IH by done. rewrite Hm.
  rewrite registerPaths_router, Hr, !length_app in Hj.
  destruct (route_of base entry) as [[rt op]|]; [|done].
  simpl in Hj. rewrite lookup_insert_ne; [done|lia].
Qed.

(** X6. Registration into an empty router with an empty route table
    keeps the two in step: position [i] holds a route exactly when the
    table binds [i], the route is the one of the [i]-th path item that
    declares a method, and the operation bound to it is that item's. *)
Theorem route_table_in_step base paths p out i :
  router p = [] → routes p = ∅ →
  router (registerPaths base paths (p, out)).1 !! i
  = fst <$> omap (route_of base) paths !! i
  ∧ routes (registerPaths base paths (p, out)).1 !! i
    = snd <$> omap (route_of base) paths !! i.
Proof.
  intros Hr Hm. split.
  - rewrite registerPaths_router, Hr. simpl. apply list_lookup_fmap.
  - destruct (omap (route_of base) paths !! i) as [e|] eqn:Hi.
    + pose proof (registerPaths_routes base paths p out i e Hi) as Hb.
      rewrite Hr in Hb. done.
    + rewrite registerPaths_routes_beyond.
      * by rewrite Hm, lookup_empty.
      * rewrite registerPaths_router, Hr. simpl. rewrite length_fmap.
        by apply lookup_ge_None.
Qed.



End MoreRegistration.

(** ** Beyond the claims: the dispatch core *)

Section MoreDispatch.
Context `{!Collaborators} {W : Type} `{!ResponseWriter W}.
Implicit Types (proxy p : Proxy) (next : Request → prog) (req : Request)
               (wd : World (W:=W)).

Lemma Route_Match_registered req tpl m :
  Is_true (Route_Match req (mkRoute tpl (Some [m])))
  ↔ mux_path_match tpl (URL_Path req) = true ∧ Method req = m.
Proof.
  unfold Route_Match. simpl.
  rewrite andb_True, bool_decide_spec, list_elem_of_singleton, Is_true_true.
  done.
Qed.

Lemma Router_Match_Some (r : list Route) req i :
  Router_Match r req = Some i
  → ∃ rt, r !! i = Some rt ∧ Is_true (Route_Match req rt).
Proof.
  unfold Router_Match. intros Hm.
  destruct (list_find _ r) as [[j rt]|] eqn:Hf; [|done].
  injection Hm as ->. apply list_find_Some in Hf as (Hl & HP & _). eauto.
Qed.

Lemma route_of_Some base entry rt op :
  route_of base entry = Some (rt, op)
  ↔ ∃ m, first_declared entry.2 = Some (m, op)
         ∧ rt = mkRoute (base +:+ entry.1) (Some [m]).
Proof.
  unfold route_of. destruct (first_declared entry.2) as [[m op']|]; simpl.
  - split.
    + intros [= <- <-]. by exists m.
    + by intros (m' & [= -> ->] & ->).
  - split; [done|]. by intros (m & [=] & _).
Qed.

Lemma registered_match_sound base paths p out req i :
  router p = [] →
  Router_Match (router (registerPaths base paths (p, out)).1) req = Some i →
  ∃ path item op,
    (path, item) ∈ paths
    ∧ first_declared item = Some (Method req, op)
    ∧ mux_path_match (base +:+ path) (URL_Path req) = true
    ∧ routes (registerPaths base paths (p, out)).1 !! i = Some op.
Proof.
  intros Hr Hm. apply Router_Match_Some in Hm as (rt & Hl & HP).
  rewrite registerPaths_router, Hr in Hl. simpl in Hl.
  apply list_lookup_fmap_Some_1 in Hl as ([rt' op] & -> & He).
  pose proof (registerPaths_routes base paths p out i _ He) as Hb.
  rewrite Hr in Hb. simpl in Hb.
  apply list_elem_of_lookup_2, list_elem_of_omap in He
    as ([path item] & Hin & Hro).
  apply route_of_Some in Hro as (m & Hfd & ->). simpl in *.
  apply Route_Match_registered in HP as [Hpm <-].
  by exists path, item, op.
Qed.

(** X8. In a proxy whose routes all come from registration, a request is
    matched exactly when some path item of the document has the request's
    method as its selected method and a template, under the base path,
    that matches the request's path; and the operation that then governs
    the request is the selected operation of such a path item. *)
Theorem request_matched_iff base paths p out req :
  router p = [] →
  (is_Some (Router_Match (router (registerPaths base paths (p, out)).1) req)
   ↔ ∃ path item op,
       (path, item) ∈ paths
       ∧ first_declared item = Some (Method req, op)
       ∧ mux_path_match (base +:+ path) (URL_Path req) = true)
  ∧ (∀ i,
       Router_Match (router (registerPaths base paths (p, out)).1) req = Some i →
       ∃ path item op,
         (path, item) ∈ paths
         ∧ first_declared item = Some (Method req, op)
         ∧ mux_path_match (base +:+ path) (URL_Path req) = true
         ∧ routes (registerPaths base paths (p, out)).1 !! i = Some op).
Proof.
  intros Hr. split; [|intros i; by apply registered_match_sound].
  split.
  - intros [i Hm].
    destruct (registered_match_sound _ _ _ _ _ _ Hr Hm)
      as (path & item & op & ? & ? & ? & _).
    by exists path, item, op.
  - intros (path & item & op & Hin & Hfd & Hpm).
    unfold Router_Match. rewrite registerPaths_router, Hr. simpl.
    apply fmap_is_Some.
    apply (list_find_elem_of _ _ (mkRoute (base +:+ path) (Some [Method req]))).
    + apply list_elem_of_fmap.
      exists (mkRoute (base +:+ path) (Some [Method req]), op).
      split; [done|]. apply list_elem_of_omap. exists (path, item).
      split; [done|]. apply route_of_Some. by exists (Method req).
    + by apply Route_Match_registered.
Qed.



(** X11. [Handler] reports a success for a request exactly when the
    request matches a route bound to an operation, the operation declares
    the recorded status, the recorded body parses, every header the
    declared response names passes its check and the schema validator
    finds nothing. *)
Theorem Handler_success_iff proxy next req wd :
  reports (Handler proxy next req wd) = reports wd ++ [Success req]
  ↔ ∃ route op specResp data,
      Router_Match (router proxy) req = Some route
      ∧ routes proxy !! route = Some op
      ∧ StatusCodeResponses (Responses op) !! Status (recorded next req wd)
        = Some specResp
      ∧ json_Unmarshal (Body (recorded next req wd)) = inl data
      ∧ Forall (header_passes (rw_Header (recorded next req wd)))
               (Headers specResp)
      ∧ schema_violations proxy specResp data = [].
Proof.
  split.
  - intros Hrep.
    destruct (Router_Match (router proxy) req) as [route|] eqn:Hm.
    2:{ rewrite Handler_unmatched in Hrep by (by rewrite Hm).
        simpl in Hrep. by apply app_inv_head in Hrep. }
    destruct (routes proxy !! route) as [op|] eqn:Hop.
    2:{ rewrite Handler_unmatched in Hrep by (by rewrite Hm).
        simpl in Hrep. by apply app_inv_head in Hrep. }
    rewrite (Handler_matched _ _ _ _ _ _ Hm Hop) in Hrep. cbn zeta in Hrep.
    fold (recorded next req wd) in Hrep.
    destruct (StatusCodeResponses (Responses op) !! _) as [specResp|] eqn:Hst.
    2:{ simpl in Hrep. by apply app_inv_head in Hrep. }
    pose proof (Validate_nil_cases proxy (Status (recorded next req wd))
                  (rw_Header (recorded next req wd))
                  (Body (recorded next req wd)) specResp) as Hnil.
    destruct (Validate _ _ _ _ _) as [[err|] t]; simpl in *.
    { by apply app_inv_head in Hrep. }
    destruct (proj1 Hnil eq_refl) as (data & ? & ? & ?).
    by exists route, op, specResp, data.
  - intros (route & op & specResp & data & Hm & Hop & Hst & Hj & Hh & Hs).
    rewrite (Handler_matched _ _ _ _ _ _ Hm Hop). cbn zeta.
    fold (recorded next req wd). rewrite Hst.
    pose proof (Validate_nil_cases proxy (Status (recorded next req wd))
                  (rw_Header (recorded next req wd))
                  (Body (recorded next req wd)) specResp) as Hnil.
    destruct (Validate _ _ _ _ _) as [res t]; simpl in *.
    rewrite (proj2 Hnil); [done|]. by exists data.
Qed.
End MoreDispatch.
Section Evaluation.
#[local] Existing Instance stub.

(** C7. [Handler] wrapped around a backend, on a request that matches no
    route: the reporter gets the warning, but the backend is not called and
    the caller's writer receives nothing, where the backend alone, and
    [notFound] on the same request, deliver the status and the body. *)
Theorem Handler_drops_unmatched_request :
  Router_Match (router bare) get_ping = None
  ∧ Handler bare say_hi get_ping fresh
    = mkWorld (mkConn ∅ [])
              [Warning get_ping "Route not defined on the Spec"] []
  ∧ ServeHTTP (say_hi get_ping) (sink fresh)
    = mkConn ∅ [CallWriteHeader 200; CallWrite hi]
  ∧ sink (notFound bare get_ping fresh)
    = mkConn ∅ [CallWriteHeader 200; CallWrite hi].
Proof. repeat split; reflexivity. Qed.


(** *** The theorems above, at the sample inputs *)

Lemma Handler_pass_through_witness :
  Router_Match (router served) get_ping = Some 0
  ∧ routes served !! 0 = Some op_ping
  ∧ sink (Handler served say_hi get_ping fresh)
    = ServeHTTP (say_hi get_ping) (sink fresh).
Proof.
  split; [reflexivity|split; [reflexivity|]].
  exact (proj1 (Handler_pass_through served say_hi get_ping fresh 0 op_ping
                  eq_refl eq_refl)).
Defined.


Lemma Validate_aggregates_witness :
  json_Unmarshal hi = inl hi
  ∧ malformed bad_headers "X-Rate-Limit" (mkHeader "int32")
  ∧ missing bad_headers "X-Expires"
  ∧ ∃ e1 e2, (Validate bare 200 bad_headers hi two_headers).1
             = Some (CompositeError [e1; e2]).
Proof.
  assert (Hmal : malformed bad_headers "X-Rate-Limit" (mkHeader "int32")).
  { split; [vm_compute; discriminate|].
    left. split; [reflexivity|vm_compute; discriminate]. }
  assert (Hmiss : missing bad_headers "X-Expires") by reflexivity.
  split; [reflexivity|split; [exact Hmal|split; [exact Hmiss|]]].
  destruct (Validate_aggregates bare 200 bad_headers hi two_headers hi eq_refl)
    as (_ & _ & Htwo).
  destruct (Htwo "X-Rate-Limit" (mkHeader "int32") "X-Expires"
                 (mkHeader "date-time") eq_refl
                 (or_intror (conj Hmal Hmiss)) eq_refl)
    as (e1 & e2 & _ & _ & Hres).
  exists e1, e2. exact Hres.
Defined.

Lemma Validate_parse_failure_witness :
  json_Unmarshal [] = inr (Errorf "unexpected end of JSON input")
  ∧ Validate bare 200 bad_headers [] two_headers
    = (Some (Errorf "unexpected end of JSON input"),
       [ev_Validate 200 []; ev_json_Unmarshal []]).
Proof.
  split; [reflexivity|].
  exact (Validate_parse_failure bare 200 bad_headers [] two_headers
           (Errorf "unexpected end of JSON input") eq_refl).
Defined.

Lemma validateHeaderValue_outcomes_witness :
  validateHeaderValue "X-Expires" (Header_Get bad_headers "X-Expires")
                      (mkHeader "date-time")
  = Some (Errorf "X-Expires in headers is missing")
  ∧ validateHeaderValue "X-Rate-Limit" (Header_Get bad_headers "X-Rate-Limit")
                        (mkHeader "int32")
    = Some (Errorf "invalid syntax")
  ∧ validateHeaderValue "X-Rate-Limit" (Header_Get bad_headers "X-Rate-Limit")
                        (mkHeader "uuid")
    = None.
Proof.
  destruct (validateHeaderValue_outcomes bad_headers "X-Expires"
              (mkHeader "date-time")) as (_ & Hmissing & _).
  destruct (validateHeaderValue_outcomes bad_headers "X-Rate-Limit"
              (mkHeader "int32")) as (_ & _ & Hint32 & _).
  destruct (validateHeaderValue_outcomes bad_headers "X-Rate-Limit"
              (mkHeader "uuid")) as (_ & _ & _ & _ & Hother).
  split; [exact (Hmissing eq_refl)|split].
  - apply Hint32; [vm_compute; discriminate|reflexivity|reflexivity].
  - apply Hother; vm_compute; discriminate.
Defined.

Lemma Handler_status_not_defined_witness :
  StatusCodeResponses (Responses op_ping)
    !! Status (recorded say_404 get_ping fresh) = None
  ∧ reports (Handler served say_404 get_ping fresh)
    = [Error get_ping (Errorf "Server Status 404 not defined by the spec")]
  ∧ events (Handler served say_404 get_ping fresh) = [].
Proof.
  split; [reflexivity|].
  exact (Handler_status_not_defined served say_404 get_ping fresh 0 op_ping
           eq_refl eq_refl eq_refl).
Defined.

Lemma Write_buffer_first_witness :
  (buf_Write (wr_body nearly_full) hi).2.2 = Some (Errorf "buffer full")
  ∧ (Write hi nearly_full).2 = (0%Z, Some (Errorf "buffer full"))
  ∧ wr_ResponseWriter (Write hi nearly_full).1 = mkConn ∅ [].
Proof.
  split; [reflexivity|].
  destruct (Write_buffer_first nearly_full hi) as (_ & Hfail & _).
  destruct (Hfail (Errorf "buffer full") eq_refl) as (Hres & Hsink & _).
  split; [exact Hres|exact Hsink].
Defined.

Lemma Validate_empty_body_witness :
  json_Unmarshal [] = inr (Errorf "unexpected end of JSON input")
  ∧ Body (recorded say_204 get_ping fresh) = []
  ∧ (Validate bare 204 ∅ [] plain).1
    = Some (Errorf "unexpected end of JSON input")
  ∧ reports (Handler served say_204 get_ping fresh)
    = [Error get_ping (Errorf "unexpected end of JSON input")].
Proof.
  split; [reflexivity|split; [reflexivity|]].
  destruct (Validate_empty_body (H:=stub) (W:=Conn)
              (Errorf "unexpected end of JSON input") eq_refl)
    as (Hv & _ & Hh).
  split; [exact (Hv bare 204%Z ∅ plain)|].
  exact (Hh served say_204 get_ping fresh 0 op_ping plain
            eq_refl eq_refl eq_refl eq_refl).
Defined.

Lemma Status_last_WriteHeader_witness :
  Status (recorded just_write get_ping fresh) = 0%Z
  ∧ StatusCodeResponses (Responses op_ping) !! 200%Z = Some plain
  ∧ reports (Handler served just_write get_ping fresh)
    = [Error get_ping (Errorf "Server Status 0 not defined by the spec")].
Proof.
  destruct (Status_last_WriteHeader (H:=stub) (W:=Conn)) as (_ & _ & Hh).
  assert (Hno : ∀ s, CallWriteHeader s
                     ∉ calls_of (just_write get_ping) (sink fresh)).
  { intros s Hs. inversion Hs as [|? ? ? Hs']; subst. inversion Hs'. }
  destruct (Hh served just_write get_ping fresh 0 op_ping eq_refl eq_refl Hno)
    as (Hst & Hrep).
  split; [exact Hst|split; [reflexivity|exact (Hrep eq_refl)]].
Defined.

(** *** The further theorems, at the sample inputs *)

Lemma recorder_invisible_witness :
  never_fails bytes
  ∧ wr_ResponseWriter
      (ServeHTTP (say_hi get_ping)
                 (NewWriterRecorder (B:=bytes) (mkConn ∅ [])))
    = ServeHTTP (say_hi get_ping) (mkConn ∅ []).
Proof.
  assert (Hok : never_fails bytes) by (intros b p; reflexivity).
  split; [exact Hok|].
  exact (proj1 (recorder_invisible (say_hi get_ping)
                  (NewWriterRecorder (B:=bytes) (mkConn ∅ [])) Hok)).
Defined.

Lemma Validate_checks_everything_witness :
  json_Unmarshal hi = inl hi
  ∧ (Validate bare 200 bad_headers hi two_headers).2
    = [ev_Validate 200 hi; ev_json_Unmarshal hi;
       ev_validateHeaderValue "X-Rate-Limit" "many";
       ev_validateHeaderValue "X-Expires" ""].
Proof.
  split; [reflexivity|].
  exact (Validate_checks_everything bare 200 bad_headers hi two_headers hi
           eq_refl).
Defined.

Lemma route_table_in_step_witness :
  router bare = [] ∧ routes bare = ∅
  ∧ router served !! 0 = Some (mkRoute "/ping" (Some ["GET"]))
  ∧ routes served !! 0 = Some op_ping.
Proof.
  split; [reflexivity|split; [reflexivity|]].
  exact (route_table_in_step "" [("/ping", item_get_post)] bare [] 0
           eq_refl eq_refl).
Defined.

Lemma request_matched_iff_witness :
  router bare = []
  ∧ is_Some (Router_Match (router served) get_ping).
Proof.
  split; [reflexivity|].
  apply (proj1 (request_matched_iff "" [("/ping", item_get_post)] bare []
                  get_ping eq_refl)).
  exists "/ping", item_get_post, op_ping.
  split; [by left|split; reflexivity].
Defined.

End Evaluation.
